(** * The CSS selector builder of core-js-101

    A shallow embedding of [src/selector.js] (class [Selector]) and of the
    selector part of the tasks file (class [SelectorElem] and the
    [cssSelectorBuilder] facade), followed by the properties of the builder
    that its specification states.

    Conventions of the embedding:
    - an instance of [Selector] is a record of its mutable fields;
    - a method is a state transformer over that record which either returns
      normally or throws; the mutations made before a [throw] are kept, as
      they are in JavaScript;
    - builders are objects on a heap and are passed around by reference, so
      that two arguments of [combine] may be the same object;
    - [undefined] (a key missing from [selectorsWeight], an index outside an
      array) is [None]. *)

From stdpp Require Import base gmap strings list.
From Stdlib Require Import ZArith Lia Sorted.

Open Scope Z_scope.

(** ** Completions and the method monad *)

(** How a call ends: it returns a value, or it throws [new Error(msg)]. *)
Inductive completion (A : Type) : Type :=
| Normal (a : A)
| Throw (msg : string).
Arguments Normal {A} a.
Arguments Throw {A} msg.

Module Sel.

(** The fields assigned by the constructor of [Selector].  The field
    [selectorsWeight] is a table that no method assigns to; it is the
    constant [selectorsWeight] below. *)
Record Selector : Type := mkSelector {
  selectors : list string;
  isIdExist : bool;
  isElExist : bool;
  isPseudoElExist : bool;
  selectorsTypes : list (option Z)
}.

(** [this.selectorsWeight]: an object used as a map from type names. *)
Definition selectorsWeight : gmap string Z :=
  list_to_map
    [ (EmptyString, 0);
      ("element", 1);
      ("id", 10);
      ("class", 20);
      ("attribute", 30);
      ("pseudo-class", 40);
      ("pseudo-element", 50) ].

(** [constructor()] *)
Definition new_Selector : Selector :=
  {| selectors := [];
     isIdExist := false;
     isElExist := false;
     isPseudoElExist := false;
     selectorsTypes := [] |}.

(** Field assignments [this.f = v]. *)
Definition set_selectors (v : list string) (this : Selector) : Selector :=
  {| selectors := v;
     isIdExist := isIdExist this;
     isElExist := isElExist this;
     isPseudoElExist := isPseudoElExist this;
     selectorsTypes := selectorsTypes this |}.

Definition set_isIdExist (v : bool) (this : Selector) : Selector :=
  {| selectors := selectors this;
     isIdExist := v;
     isElExist := isElExist this;
     isPseudoElExist := isPseudoElExist this;
     selectorsTypes := selectorsTypes this |}.

Definition set_isElExist (v : bool) (this : Selector) : Selector :=
  {| selectors := selectors this;
     isIdExist := isIdExist this;
     isElExist := v;
     isPseudoElExist := isPseudoElExist this;
     selectorsTypes := selectorsTypes this |}.

Definition set_isPseudoElExist (v : bool) (this : Selector) : Selector :=
  {| selectors := selectors this;
     isIdExist := isIdExist this;
     isElExist := isElExist this;
     isPseudoElExist := v;
     selectorsTypes := selectorsTypes this |}.

Definition set_selectorsTypes (v : list (option Z)) (this : Selector) : Selector :=
  {| selectors := selectors this;
     isIdExist := isIdExist this;
     isElExist := isElExist this;
     isPseudoElExist := isPseudoElExist this;
     selectorsTypes := v |}.

(** A method body: it runs on [this] and leaves [this] behind, whether it
    returns or throws. *)
Definition M (A : Type) : Type := Selector -> completion A * Selector.

#[global] Instance M_ret : MRet M := fun A a this => (Normal a, this).

#[global] Instance M_bind : MBind M := fun A B f m this =>
  match m this with
  | (Normal a, this') => f a this'
  | (Throw msg, this') => (Throw msg, this')
  end.

Definition throw {A : Type} (msg : string) : M A :=
  fun this => (Throw msg, this).

(** Read a field of [this]. *)
Definition get {A : Type} (field : Selector -> A) : M A :=
  fun this => (Normal (field this), this).

(** Assign to [this]. *)
Definition assign (upd : Selector -> Selector) : M unit :=
  fun this => (Normal tt, upd this).

(** ** JavaScript primitives used by the class *)

(** [a < b] on values that are numbers or [undefined]: with [undefined] on
    either side the comparison is [false].  (A name that [selectorsWeight]
    only inherits from [Object.prototype] yields an object, which compares
    as [undefined] does; no call in the program passes such a name.) *)
Definition js_lt (a b : option Z) : bool :=
  match a, b with
  | Some x, Some y => x <? y
  | _, _ => false
  end.

(** [arr.join('')] on an array of strings. *)
Definition join (arr : list string) : string := String.concat EmptyString arr.

(** [arr[i]]: [undefined] outside the array. *)
Definition index (arr : list (option Z)) (i : nat) : option Z :=
  mjoin (arr !! i).

Definition order_msg : string :=
  "Selector parts should be arranged in the following order: element, id, class, attribute, pseudo-class, pseudo-element".

Definition dup_msg : string :=
  "Element, id and pseudo-element should not occur more then one time inside the selector".

(** ** class Selector *)

Definition isRightOrder (type : string) : M bool :=
  types ← get selectorsTypes;
  if (length types =? 0)%nat then mret true
  else
    let prevVal := index types (length types - 1) in
    let currVal := selectorsWeight !! type in
    if js_lt currVal prevVal then throw order_msg else mret true.

(** [add(val, type = '')]; the value returned is [this]. *)
Definition add (val : string) (type : string) : M unit :=
  ok ← isRightOrder type;
  (if ok : bool then
     sels ← get selectors;
     assign (set_selectors (sels ++ [val]));;
     types ← get selectorsTypes;
     assign (set_selectorsTypes (types ++ [selectorsWeight !! type]))
   else mret tt).

Definition stringify : M string :=
  sels ← get selectors;
  let selectorStr := join sels in
  assign (set_selectors []);;
  assign (set_isIdExist false);;
  assign (set_isElExist false);;
  assign (set_isPseudoElExist false);;
  mret selectorStr.

End Sel.

(** ** class SelectorElem extends Selector

    The subclass declares no field and no constructor, so an instance has
    the fields of [Selector].  Each method returns [this]. *)
Module SelectorElem.
Import Sel.

Definition new_SelectorElem : Selector := new_Selector.

Definition element (value : string) : M unit :=
  seen ← get isElExist;
  (if negb seen then
     add value "element";;
     assign (set_isElExist true)
   else throw dup_msg).

Definition id (value : string) : M unit :=
  seen ← get isIdExist;
  (if negb seen then
     add ("#" +:+ value) "id";;
     assign (set_isIdExist true)
   else throw dup_msg).

Definition class (value : string) : M unit :=
  add ("." +:+ value) "class".

Definition attr (value : string) : M unit :=
  add ("[" +:+ value +:+ "]") "attribute".

Definition pseudoClass (value : string) : M unit :=
  add (":" +:+ value) "pseudo-class".

Definition pseudoElement (value : string) : M unit :=
  seen ← get isPseudoElExist;
  (if negb seen then
     add ("::" +:+ value) "pseudo-element";;
     assign (set_isPseudoElExist true)
   else throw dup_msg).

End SelectorElem.

(** ** Objects on the heap

    A builder is handled through a reference.  The heap is the array of
    the objects allocated so far and a reference is an index into it. *)
Module Heap.
Import Sel.

Definition ref : Type := nat.

(** A heap computation.  [None] stands for the use of a reference to an
    object that was never allocated, which no JavaScript program can hold;
    it is told apart from a thrown error. *)
Definition Js (A : Type) : Type :=
  list Selector -> option (completion A * list Selector).

#[global] Instance Js_ret : MRet Js := fun A a h => Some (Normal a, h).

#[global] Instance Js_bind : MBind Js := fun A B f m h =>
  match m h with
  | Some (Normal a, h') => f a h'
  | Some (Throw msg, h') => Some (Throw msg, h')
  | None => None
  end.

(** [new C()]: the object is placed at the first free index. *)
Definition alloc (o : Selector) : Js ref :=
  fun h => Some (Normal (length h), (h ++ [o])%list).

(** Run the method body [m] with [this] bound to the object at [r]. *)
Definition invoke {A : Type} (r : ref) (m : M A) : Js A :=
  fun h =>
    match h !! r with
    | Some this =>
        let (c, this') := m this in Some (c, <[r := this']> h)
    | None => None
    end.

(** [b.m(...)] for a method that ends in [return this], [b] being an
    expression: the value of the call is the receiver. *)
Definition send (b : Js ref) (m : M unit) : Js ref :=
  r ← b; invoke r m;; mret r.

(** [b.stringify()] *)
Definition render (b : Js ref) : Js string :=
  r ← b; invoke r stringify.

End Heap.

Notation "b ▷ m" := (Heap.send b m) (at level 40, left associativity).

(** ** The facade [cssSelectorBuilder] *)
Module cssSelectorBuilder.
Import Sel Heap.

Definition element (value : string) : Js ref :=
  alloc SelectorElem.new_SelectorElem ▷ SelectorElem.element value.

Definition id (value : string) : Js ref :=
  alloc SelectorElem.new_SelectorElem ▷ SelectorElem.id value.

Definition class (value : string) : Js ref :=
  alloc SelectorElem.new_SelectorElem ▷ SelectorElem.class value.

Definition attr (value : string) : Js ref :=
  alloc SelectorElem.new_SelectorElem ▷ SelectorElem.attr value.

Definition pseudoClass (value : string) : Js ref :=
  alloc SelectorElem.new_SelectorElem ▷ SelectorElem.pseudoClass value.

Definition pseudoElement (value : string) : Js ref :=
  alloc SelectorElem.new_SelectorElem ▷ SelectorElem.pseudoElement value.

(** [add] is called with one argument, so [type] takes its default [''].
    The operands are references and may be the same object. *)
Definition combine (selector1 : ref) (combinator : string) (selector2 : ref)
  : Js ref :=
  str1 ← invoke selector1 stringify;
  str2 ← invoke selector2 stringify;
  alloc SelectorElem.new_SelectorElem
    ▷ add (str1 +:+ " " +:+ combinator +:+ " " +:+ str2) EmptyString.

End cssSelectorBuilder.

(** ** Vocabulary of the properties *)

Import Sel Heap.

(** The six fragment methods of a builder. *)
Inductive method : Type :=
| Element | Id | Class | Attr | PseudoClass | PseudoElement.

(** [b.m(value)] for each of them. *)
Definition call (m : method) (value : string) : M unit :=
  match m with
  | Element => SelectorElem.element value
  | Id => SelectorElem.id value
  | Class => SelectorElem.class value
  | Attr => SelectorElem.attr value
  | PseudoClass => SelectorElem.pseudoClass value
  | PseudoElement => SelectorElem.pseudoElement value
  end.

(** The factory function of the facade for each of them. *)
Definition factory (m : method) (value : string) : Js ref :=
  match m with
  | Element => cssSelectorBuilder.element value
  | Id => cssSelectorBuilder.id value
  | Class => cssSelectorBuilder.class value
  | Attr => cssSelectorBuilder.attr value
  | PseudoClass => cssSelectorBuilder.pseudoClass value
  | PseudoElement => cssSelectorBuilder.pseudoElement value
  end.

(** The rank of the kind of fragment a method appends. *)
Definition rank (m : method) : Z :=
  match m with
  | Element => 1
  | Id => 10
  | Class => 20
  | Attr => 30
  | PseudoClass => 40
  | PseudoElement => 50
  end.

(** The fragment a method appends for a value: the value with its sigil. *)
Definition fragment (m : method) (value : string) : string :=
  match m with
  | Element => value
  | Id => "#" +:+ value
  | Class => "." +:+ value
  | Attr => "[" +:+ value +:+ "]"
  | PseudoClass => ":" +:+ value
  | PseudoElement => "::" +:+ value
  end.

(** The kinds that may occur once. *)
Definition singleton (m : method) : bool :=
  match m with
  | Element | Id | PseudoElement => true
  | Class | Attr | PseudoClass => false
  end.

(** The flag a method consults before it appends; the methods of the
    repeatable kinds consult none. *)
Definition seen (m : method) (this : Selector) : bool :=
  match m with
  | Element => isElExist this
  | Id => isIdExist this
  | PseudoElement => isPseudoElExist this
  | Class | Attr | PseudoClass => false
  end.

(** The flag a method sets after it has appended. *)
Definition mark (m : method) (this : Selector) : Selector :=
  match m with
  | Element => set_isElExist true this
  | Id => set_isIdExist true this
  | PseudoElement => set_isPseudoElExist true this
  | Class | Attr | PseudoClass => this
  end.

(** The last entry of [selectorsTypes], [undefined] when there is none. *)
Definition last_rank (this : Selector) : option Z :=
  mjoin (last (selectorsTypes this)).

(** [this] after the two [push] calls of [add]. *)
Definition pushed (val : string) (w : option Z) (this : Selector) : Selector :=
  set_selectorsTypes (selectorsTypes this ++ [w])
    (set_selectors (selectors this ++ [val]) this).

(** [this] after the four assignments of [stringify]. *)
Definition rendered (this : Selector) : Selector :=
  set_isPseudoElExist false
    (set_isElExist false (set_isIdExist false (set_selectors [] this))).

(** Concatenation of strings in list order, nothing in between. *)
Definition concat_all (l : list string) : string :=
  foldr String.append EmptyString l.

(** A chain [b.m1(v1).m2(v2)...]: it stops at the first call that throws. *)
Fixpoint chain (calls : list (method * string)) : M unit :=
  match calls with
  | [] => mret tt
  | (m, v) :: rest => call m v;; chain rest
  end.

(** The same chain written on a builder expression. *)
Definition send_all (b : Js ref) (calls : list (method * string)) : Js ref :=
  foldl (fun b c => b ▷ call c.1 c.2) b calls.

(** The states a builder can be in: it is created by a factory function
    or by [combine], which call a fragment method or [add] with the default
    type on a new instance, and is then used through the fragment methods
    and [stringify].  A call that throws leaves a state too, which a caller
    that catches the error can go on using. *)
Inductive reachable : Selector -> Prop :=
| reach_new : reachable SelectorElem.new_SelectorElem
| reach_call m v this :
    reachable this -> reachable (call m v this).2
| reach_add val this :
    reachable this -> reachable (add val EmptyString this).2
| reach_stringify this :
    reachable this -> reachable (stringify this).2.

(** [since_render this this']: [this'] comes from [this] by calls other than
    [stringify], whether they return or throw. *)
Inductive since_render (this : Selector) : Selector -> Prop :=
| sr_here : since_render this this
| sr_call m v this' :
    since_render this this' -> since_render this (call m v this').2
| sr_add val type this' :
    since_render this this' -> since_render this (add val type this').2.

(** What the order check promises for one call [body] on [this] that
    appends with weight [w] and, when it returns, leaves [after]: against
    the rank [r] recorded with the last fragment, a smaller weight throws
    the order error and leaves [this] as it was, any other weight returns
    with [after]. *)
Definition order_checked
    (this : Selector) (body : M unit) (w : Z) (after : Selector) : Prop :=
  exists r : Z,
    last (selectorsTypes this) = Some (Some r) /\
    (w < r -> body this = (Throw order_msg, this)) /\
    (r <= w -> body this = (Normal tt, after)).

(** [this] after the fragment method [m] has appended for [v]. *)
Definition appended (m : method) (v : string) (this : Selector) : Selector :=
  mark m (pushed (fragment m v) (Some (rank m)) this).

(** [b.stringify()] on the heap [h] returns [s]. *)
Definition renders_as (h : list Selector) (r : ref) (s : string) : Prop :=
  exists h', invoke r stringify h = Some (Normal s, h').

(** The string [combine] composes from the rendered operands. *)
Definition combined (str1 combinator str2 : string) : string :=
  str1 +:+ " " +:+ combinator +:+ " " +:+ str2.

(** The instance [combine] returns: one fragment, of the default type. *)
Definition combined_instance (s : string) : Selector :=
  {| selectors := [s];
     isIdExist := false;
     isElExist := false;
     isPseudoElExist := false;
     selectorsTypes := [Some 0] |}.

(** ** The expressions of the examples *)

(** The double-quote character of the attribute example. *)
Definition dquote : string := String (Ascii.ascii_of_nat 34) EmptyString.

(** [element('a').attr(v).pseudoClass('focus').stringify()], where [v] is
    [href$=] followed by [.png] between double quotes. *)
Definition example_link : Js string :=
  render
    (cssSelectorBuilder.element "a"
       ▷ SelectorElem.attr ("href$=" +:+ dquote +:+ ".png" +:+ dquote)
       ▷ SelectorElem.pseudoClass "focus").

(** [id('main').class('container').class('editable').stringify()] *)
Definition example_main : Js string :=
  render
    (cssSelectorBuilder.id "main"
       ▷ SelectorElem.class "container"
       ▷ SelectorElem.class "editable").

(** The nested [combine] expression of the documentation.  Arguments are
    evaluated from left to right before the call they belong to. *)
Definition example_nested : Js string :=
  render
    (div ← cssSelectorBuilder.element "div"
             ▷ SelectorElem.id "main"
             ▷ SelectorElem.class "container"
             ▷ SelectorElem.class "draggable";
     rest ←
       (table ← cssSelectorBuilder.element "table" ▷ SelectorElem.id "data";
        cells ←
          (tr ← cssSelectorBuilder.element "tr"
                  ▷ SelectorElem.pseudoClass "nth-of-type(even)";
           td ← cssSelectorBuilder.element "td"
                  ▷ SelectorElem.pseudoClass "nth-of-type(even)";
           cssSelectorBuilder.combine tr " " td);
        cssSelectorBuilder.combine table "~" cells);
     cssSelectorBuilder.combine div "+" rest).

(** [class('a')]; [b.stringify()]; then [b.element('div')] on the same
    builder [b]. *)
Definition example_reuse : Js ref :=
  b ← cssSelectorBuilder.class "a";
  invoke b stringify;;
  mret b ▷ SelectorElem.element "div".

(** The builder [element('a').class('b')]. *)
Definition link_with_class : Selector :=
  (chain [(Element, "a"); (Class, "b")] SelectorElem.new_SelectorElem).2.

(** [class('a')] followed by [stringify()], on one instance. *)
Definition class_then_render : Selector :=
  (stringify (call Class "a" SelectorElem.new_SelectorElem).2).2.

(** ** Vocabulary of the further properties *)

#[global] Instance method_eq_dec : EqDecision method.
Proof. solve_decision. Defined.

(** The ranks recorded with the fragments [this] holds now: one entry of
    [selectorsTypes] per fragment, counted from its end. *)
Definition current_ranks (this : Selector) : list (option Z) :=
  drop (length (selectorsTypes this) - length (selectors this))
    (selectorsTypes this).

(** How many of the ranks [ws] are the rank of the kind of [m]. *)
Definition occurrences (m : method) (ws : list (option Z)) : nat :=
  length (filter (fun w => w = Some (rank m)) ws).

(** The methods called by a chain, in call order. *)
Definition methods_of (calls : list (method * string)) : list method :=
  calls.*1.

(** The fragments a chain formats, in call order. *)
Definition fragments_of (calls : list (method * string)) : list string :=
  map (fun c => fragment c.1 c.2) calls.

(** A chain is in selector order when the ranks of its calls never
    decrease and no singleton method occurs twice. *)
Definition well_ordered (calls : list (method * string)) : Prop :=
  Sorted Z.le (map rank (methods_of calls)) /\
  NoDup (filter (fun m => singleton m = true) (methods_of calls)).

(** [combine(combine(a, c, b), c', d)] *)
Definition combine_left (a : ref) (c : string) (b : ref) (c' : string) (d : ref)
  : Js ref :=
  ab ← cssSelectorBuilder.combine a c b;
  cssSelectorBuilder.combine ab c' d.

(** [combine(a, c, combine(b, c', d))] *)
Definition combine_right (a : ref) (c : string) (b : ref) (c' : string) (d : ref)
  : Js ref :=
  bd ← cssSelectorBuilder.combine b c' d;
  cssSelectorBuilder.combine a c bd.

(** ** Proof steps *)

(** Unfolding of the monad of method bodies, leaving the weight table and
    the list functions folded. *)
Ltac run_body :=
  unfold mbind, M_bind, mret, M_ret, get, assign, throw; cbv beta iota.

(** * Properties *)

(** ** The methods in closed form *)

Lemma js_lt_undefined_r a : js_lt a None = false.
Proof. by destruct a. Qed.

Lemma index_last (arr : list (option Z)) :
  index arr (length arr - 1) = mjoin (last arr).
Proof.
  unfold index. rewrite last_lookup.
  by replace (length arr - 1)%nat with (pred (length arr)) by lia.
Qed.

Lemma isRightOrder_eq type this :
  isRightOrder type this =
    if js_lt (selectorsWeight !! type) (last_rank this)
    then (Throw order_msg, this) else (Normal true, this).
Proof.
  unfold isRightOrder, last_rank. run_body.
  rewrite index_last.
  destruct (selectorsTypes this) as [|w ws]; cbn [length Nat.eqb].
  - by rewrite js_lt_undefined_r.
  - by destruct (js_lt _ _).
Qed.

Lemma add_eq val type this :
  add val type this =
    if js_lt (selectorsWeight !! type) (last_rank this)
    then (Throw order_msg, this)
    else (Normal tt, pushed val (selectorsWeight !! type) this).
Proof.
  unfold add. unfold mbind at 1, M_bind. rewrite isRightOrder_eq.
  by destruct (js_lt _ _).
Qed.

Lemma stringify_eq this :
  stringify this = (Normal (join (selectors this)), rendered this).
Proof. reflexivity. Qed.

Lemma bind_run {A B : Type} (m : M A) (f : A -> M B) this :
  (m ≫= f) this =
    match m this with
    | (Normal a, this') => f a this'
    | (Throw msg, this') => (Throw msg, this')
    end.
Proof. reflexivity. Qed.

(** The weights the fragment methods look up. *)
Lemma weight_element : selectorsWeight !! "element" = Some 1.
Proof. reflexivity. Qed.
Lemma weight_id : selectorsWeight !! "id" = Some 10.
Proof. reflexivity. Qed.
Lemma weight_class : selectorsWeight !! "class" = Some 20.
Proof. reflexivity. Qed.
Lemma weight_attribute : selectorsWeight !! "attribute" = Some 30.
Proof. reflexivity. Qed.
Lemma weight_pseudo_class : selectorsWeight !! "pseudo-class" = Some 40.
Proof. reflexivity. Qed.
Lemma weight_pseudo_element : selectorsWeight !! "pseudo-element" = Some 50.
Proof. reflexivity. Qed.
Lemma weight_default : selectorsWeight !! EmptyString = Some 0.
Proof. reflexivity. Qed.

Lemma call_eq m v this :
  call m v this =
    if seen m this then (Throw dup_msg, this)
    else if js_lt (Some (rank m)) (last_rank this)
    then (Throw order_msg, this)
    else (Normal tt, mark m (pushed (fragment m v) (Some (rank m)) this)).
Proof.
  destruct m; unfold call, seen, mark, fragment, rank,
      SelectorElem.element, SelectorElem.id, SelectorElem.class,
      SelectorElem.attr, SelectorElem.pseudoClass, SelectorElem.pseudoElement.
  all: rewrite ?bind_run; unfold get.
  all: try match goal with
           | |- context [negb ?b] =>
               destruct b; cbn [negb]; [reflexivity | rewrite bind_run]
           end.
  all: rewrite add_eq, ?weight_element, ?weight_id, ?weight_class,
         ?weight_attribute, ?weight_pseudo_class, ?weight_pseudo_element.
  all: by destruct (js_lt _ _).
Qed.

(** ** Strings *)

Lemma append_cons a s1 s2 : String a s1 +:+ s2 = String a (s1 +:+ s2).
Proof. reflexivity. Qed.

Lemma append_empty_r s : s +:+ EmptyString = s.
Proof. induction s as [|a s IH]; [done|]. by rewrite append_cons, IH. Qed.

(** [join('')] puts nothing between the elements. *)
Lemma join_concat_all arr : join arr = concat_all arr.
Proof.
  unfold join. induction arr as [|x [|y arr] IH]; [done| |].
  - cbn [String.concat concat_all foldr]. by rewrite append_empty_r.
  - change (String.concat EmptyString (x :: y :: arr))
      with (x +:+ EmptyString +:+ String.concat EmptyString (y :: arr)).
    rewrite IH. reflexivity.
Qed.

Lemma messages_differ : order_msg <> dup_msg.
Proof. discriminate. Qed.

(** ** Rendering *)

(** What [stringify] does for every instance: the string is the
    concatenation of the fragments, the fragments and the three flags are
    reset, and [selectorsTypes] is left as it was. *)
Lemma stringify_spec this :
  (stringify this).1 = Normal (concat_all (selectors this)) /\
  selectors (stringify this).2 = [] /\
  isIdExist (stringify this).2 = false /\
  isElExist (stringify this).2 = false /\
  isPseudoElExist (stringify this).2 = false /\
  selectorsTypes (stringify this).2 = selectorsTypes this.
Proof. rewrite stringify_eq, join_concat_all. by repeat split. Qed.

(** C5, at the input on which the reset is incomplete: after [class('a')]
    on a new instance, [stringify()] returns the fragment, empties the
    fragment list and clears the flags, but the rank of the class fragment
    stays in [selectorsTypes]; the instance is not in the state of a new
    one. *)
Theorem stringify_reset_misses_ranks :
  stringify (call Class "a" SelectorElem.new_SelectorElem).2 =
    (Normal ".a", class_then_render) /\
  selectors class_then_render = [] /\
  isIdExist class_then_render = false /\
  isElExist class_then_render = false /\
  isPseudoElExist class_then_render = false /\
  selectorsTypes class_then_render = [Some 20] /\
  class_then_render <> SelectorElem.new_SelectorElem.
Proof. repeat split. discriminate. Qed.

(** C6: on every instance, whatever was called on it before, a second
    [stringify()] right after a first one returns the empty string. *)
Theorem stringify_twice_empty this :
  (stringify (stringify this).2).1 = Normal EmptyString.
Proof. reflexivity. Qed.

(** C9: [stringify()] never touches [selectorsTypes], so the ranks
    recorded before a render are still there after it.  With
    [b = class('a')], after [b.stringify()] the fragment list of [b] is
    empty and its last rank is still 20; [b.element('div')] then throws the
    order error and leaves [b] as it was. *)
Theorem stringify_keeps_order_history :
  (forall this, selectorsTypes (stringify this).2 = selectorsTypes this) /\
  selectors class_then_render = [] /\
  last_rank class_then_render = Some 20 /\
  SelectorElem.element "div" class_then_render =
    (Throw order_msg, class_then_render) /\
  example_reuse [] = Some (Throw order_msg, [class_then_render]).
Proof. repeat split. Qed.

(** ** The order check *)

(** Every state a call can leave is the state before it or that state with
    one more fragment and rank. *)
Lemma call_state m v this :
  (call m v this).2 = this \/
  (call m v this).2 = mark m (pushed (fragment m v) (Some (rank m)) this).
Proof.
  rewrite call_eq. destruct (seen m this); [by left|].
  destruct (js_lt _ _); [by left | by right].
Qed.

Lemma add_default_state val this :
  (add val EmptyString this).2 = this \/
  (add val EmptyString this).2 = pushed val (Some 0) this.
Proof.
  rewrite add_eq, weight_default. destruct (js_lt _ _); [by left | by right].
Qed.

Lemma selectors_mark m this : selectors (mark m this) = selectors this.
Proof. by destruct m. Qed.

Lemma selectorsTypes_mark m this :
  selectorsTypes (mark m this) = selectorsTypes this.
Proof. by destruct m. Qed.

(** In a reachable state every recorded rank is a number and every fragment
    has its rank: [add] pushes the two together and [stringify] drops
    fragments only. *)
Lemma reachable_ranks this :
  reachable this ->
  Forall is_Some (selectorsTypes this) /\
  (length (selectors this) <= length (selectorsTypes this))%nat.
Proof.
  induction 1 as [|m v this _ [IHr IHl]|val this _ [IHr IHl]|this _ [IHr IHl]].
  - split; [constructor | reflexivity].
  - destruct (call_state m v this) as [-> | ->]; [done|].
    rewrite selectors_mark, selectorsTypes_mark. cbn. split.
    + apply Forall_app; split; [done | by repeat constructor].
    + rewrite !length_app. cbn. lia.
  - destruct (add_default_state val this) as [-> | ->]; [done|].
    cbn. split.
    + apply Forall_app; split; [done | by repeat constructor].
    + rewrite !length_app. cbn. lia.
  - rewrite stringify_eq. cbn. split; [done | lia].
Qed.

(** A reachable builder with a fragment has a last rank. *)
Lemma reachable_last_rank this :
  reachable this -> selectors this <> [] ->
  exists r : Z, last (selectorsTypes this) = Some (Some r).
Proof.
  intros [Hr Hl]%reachable_ranks Hne.
  destruct (last (selectorsTypes this)) as [w|] eqn:Hlast.
  - assert (is_Some w) as [r ->]; [|by exists r].
    eapply Forall_forall; [exact Hr|].
    apply last_Some in Hlast as [l' ->]. apply elem_of_app. right. by left.
  - apply last_None in Hlast. rewrite Hlast in Hl.
    destruct (selectors this); [done | cbn in Hl; lia].
Qed.

(** C1, for calls that pass the singleton guard: on every reachable
    builder that holds a fragment, [add] with a type of the weight table,
    and every fragment method whose singleton flag is not set (every call of
    [class], [attr] and [pseudoClass]; [element], [id] and [pseudoElement]
    while theirs is clear), is checked against the last recorded rank: a
    smaller rank throws the order error and leaves the builder as it was,
    an equal or greater rank appends the fragment and its rank and
    returns. *)
Theorem order_checked_unless_duplicate this :
  reachable this -> selectors this <> [] ->
  (forall val type w,
     selectorsWeight !! type = Some w ->
     order_checked this (add val type) w (pushed val (Some w) this)) /\
  (forall m v,
     seen m this = false ->
     order_checked this (call m v) (rank m) (appended m v this)).
Proof.
  intros Hreach Hne.
  destruct (reachable_last_rank this Hreach Hne) as [r Hlast].
  assert (last_rank this = Some r) as Hrank.
  { unfold last_rank. by rewrite Hlast. }
  split.
  - intros val type w Hw. exists r. split; [done|].
    rewrite add_eq, Hw, Hrank. cbn [js_lt].
    split; intros Hr.
    + by replace (w <? r) with true by lia.
    + by replace (w <? r) with false by lia.
  - intros m v Hseen. exists r. split; [done|].
    rewrite call_eq, Hseen, Hrank. cbn [js_lt].
    split; intros Hr.
    + by replace (rank m <? r) with true by lia.
    + by replace (rank m <? r) with false by lia.
Qed.

Lemma link_with_class_reachable : reachable link_with_class.
Proof.
  change link_with_class
    with (call Class "b" (call Element "a" SelectorElem.new_SelectorElem).2).2.
  repeat constructor.
Qed.

(** C1 at two calls that pass the guard: after [element('a').class('b')]
    the flag of [id] is clear, so [id('x')], of rank 10 below 20, throws the
    order error, and [attr('y')], of rank 30, is appended. *)
Lemma order_checked_unless_duplicate_witness :
  call Id "x" link_with_class = (Throw order_msg, link_with_class) /\
  call Attr "y" link_with_class =
    (Normal tt, appended Attr "y" link_with_class).
Proof.
  destruct (order_checked_unless_duplicate link_with_class
              link_with_class_reachable ltac:(discriminate))
    as [_ Hcall].
  split.
  - destruct (Hcall Id "x" eq_refl) as (r & Hlast & Hlow & _).
    injection Hlast as <-. by apply Hlow.
  - destruct (Hcall Attr "y" eq_refl) as (r & Hlast & _ & Hhigh).
    injection Hlast as <-. by apply Hhigh.
Defined.

(** C1 does not hold for every fragment method: after
    [element('a').class('b')] the builder holds fragments and its last rank
    is 20; [element('c')] has rank 1, yet the call throws the duplicate
    error, not the order error. *)
Lemma order_check_after_duplicate_check :
  reachable link_with_class /\
  selectors link_with_class <> [] /\
  last (selectorsTypes link_with_class) = Some (Some 20) /\
  rank Element < 20 /\
  call Element "c" link_with_class = (Throw dup_msg, link_with_class) /\
  ~ order_checked link_with_class (call Element "c") (rank Element)
      (appended Element "c" link_with_class).
Proof.
  split; [exact link_with_class_reachable|].
  split; [discriminate|]. split; [reflexivity|]. split; [reflexivity|].
  split; [reflexivity|].
  intros (r & Hlast & Hlow & _).
  change (last (selectorsTypes link_with_class)) with (Some (Some 20)) in Hlast.
  assert (r = 20) as -> by congruence.
  specialize (Hlow eq_refl). discriminate Hlow.
Qed.

(** ** The singleton kinds *)

Lemma seen_pushed m val w this : seen m (pushed val w this) = seen m this.
Proof. by destruct m. Qed.

Lemma seen_mark_same m this : singleton m = true -> seen m (mark m this) = true.
Proof. by destruct m. Qed.

Lemma seen_mark_other m m' this :
  seen m this = true -> seen m (mark m' this) = true.
Proof. by destruct m, m'. Qed.

(** A singleton method that returns has set its flag. *)
Lemma seen_after_call m v this this' :
  singleton m = true -> call m v this = (Normal tt, this') ->
  seen m this' = true.
Proof.
  intros Hs. rewrite call_eq.
  destruct (seen m this); [discriminate|].
  destruct (js_lt _ _); [discriminate|].
  intros [= <-]. by apply seen_mark_same.
Qed.

(** No fragment method and no [add] clears a flag. *)
Lemma seen_kept_call m m' v this :
  seen m this = true -> seen m (call m' v this).2 = true.
Proof.
  intros Hseen. destruct (call_state m' v this) as [-> | ->]; [done|].
  apply seen_mark_other. by rewrite seen_pushed.
Qed.

Lemma seen_kept_add m val type this :
  seen m this = true -> seen m (add val type this).2 = true.
Proof.
  intros Hseen. rewrite add_eq. destruct (js_lt _ _); [done|].
  cbn [snd]. by rewrite seen_pushed.
Qed.

Lemma seen_since_render m this this' :
  since_render this this' -> seen m this = true -> seen m this' = true.
Proof.
  induction 1 as [|m' v this' _ IH|val type this' _ IH]; intros Hseen.
  - done.
  - by apply seen_kept_call, IH.
  - by apply seen_kept_add, IH.
Qed.

(** C2: once [element], [id] or [pseudoElement] has returned on a builder,
    and whatever has been called on it since except [stringify], the same
    method called again throws the duplicate error and leaves the builder
    as it was; [class], [attr] and [pseudoClass] never throw that error, in
    any state. *)
Theorem singleton_repeated_throws :
  (forall m v v' this0 this1 this2,
     singleton m = true ->
     call m v this0 = (Normal tt, this1) ->
     since_render this1 this2 ->
     call m v' this2 = (Throw dup_msg, this2)) /\
  (forall m v this,
     singleton m = false -> (call m v this).1 <> Throw dup_msg).
Proof.
  split.
  - intros m v v' this0 this1 this2 Hs Hcall Hsince.
    rewrite call_eq.
    by rewrite (seen_since_render m this1 this2 Hsince
                  (seen_after_call m v this0 this1 Hs Hcall)).
  - intros m v this Hs. rewrite call_eq.
    replace (seen m this) with false by (by destruct m).
    destruct (js_lt _ _); cbn [fst]; [|discriminate].
    intros H. apply messages_differ. congruence.
Qed.

(** C2 at [id('main').class('c')] followed by [id('other')], and at
    [class('c')] on a new instance. *)
Lemma singleton_repeated_throws_witness :
  let b := (call Class "c" (call Id "main" SelectorElem.new_SelectorElem).2).2 in
  call Id "other" b = (Throw dup_msg, b) /\
  (call Class "c" SelectorElem.new_SelectorElem).1 <> Throw dup_msg.
Proof.
  split.
  - apply (proj1 singleton_repeated_throws Id "main" "other"
             SelectorElem.new_SelectorElem
             (call Id "main" SelectorElem.new_SelectorElem).2).
    + reflexivity.
    + reflexivity.
    + apply sr_call, sr_here.
  - apply (proj2 singleton_repeated_throws Class "c"
             SelectorElem.new_SelectorElem).
    reflexivity.
Defined.

(** ** Chains of calls *)

Lemma last_rank_pushed val w this : last_rank (pushed val w this) = w.
Proof. unfold last_rank, pushed. cbn. by rewrite last_snoc. Qed.

Lemma last_rank_mark m this : last_rank (mark m this) = last_rank this.
Proof. by destruct m. Qed.

(** A method whose flag is clear and whose rank is not below the last one
    returns, having appended. *)
Lemma call_appends m v this :
  seen m this = false ->
  (forall r, last_rank this = Some r -> r <= rank m) ->
  call m v this =
    (Normal tt, mark m (pushed (fragment m v) (Some (rank m)) this)).
Proof.
  intros Hseen Hle. rewrite call_eq, Hseen.
  destruct (last_rank this) as [r|]; [|done].
  cbn [js_lt]. by replace (rank m <? r) with false by (specialize (Hle r eq_refl); lia).
Qed.

Lemma chain_cons m v rest this :
  chain ((m, v) :: rest) this =
    match call m v this with
    | (Normal _, this') => chain rest this'
    | (Throw msg, this') => (Throw msg, this')
    end.
Proof. reflexivity. Qed.

(** A chain of repeatable kinds in non-decreasing rank order, started on an
    instance whose last rank is not above the first of them, returns and
    has appended its fragments in call order. *)
Lemma chain_repeatable calls : forall this,
  Forall (fun c => singleton c.1 = false) calls ->
  Sorted Z.le (map (fun c => rank c.1) calls) ->
  (forall r c, last_rank this = Some r -> head calls = Some c -> r <= rank c.1) ->
  exists this',
    chain calls this = (Normal tt, this') /\
    selectors this' =
      (selectors this ++ map (fun c => fragment c.1 c.2) calls)%list.
Proof.
  induction calls as [|[m v] rest IH]; intros this Hrep Hsort Hfirst.
  - exists this. split; [done|]. cbn. by rewrite app_nil_r.
  - apply Forall_cons in Hrep as [Hm Hrep]. cbn [fst] in Hm.
    cbn [map fst] in Hsort. apply Sorted_inv in Hsort as [Hsort Hhd].
    rewrite chain_cons, call_appends; first last.
    { intros r Hr. by apply (Hfirst r (m, v)). }
    { by destruct m. }
    destruct (IH (mark m (pushed (fragment m v) (Some (rank m)) this)))
      as (this' & Hchain & Hsel); [done | done | |].
    { intros r c. rewrite last_rank_mark, last_rank_pushed. intros [= <-] Hc.
      destruct rest as [|c' rest]; [done|]. cbn in Hc. injection Hc as <-.
      cbn [map] in Hhd. by apply HdRel_inv in Hhd. }
    exists this'. split; [done|].
    rewrite Hsel, selectors_mark. cbn. by rewrite <- app_assoc.
Qed.

(** ** Builders on the heap *)

Lemma invoke_eq {A : Type} r (m : M A) h this :
  h !! r = Some this ->
  invoke r m h = Some ((m this).1, <[r := (m this).2]> h).
Proof. unfold invoke. intros ->. by destruct (m this). Qed.

Lemma Js_bind_run {A B : Type} (m : Js A) (f : A -> Js B) h :
  (m ≫= f) h =
    match m h with
    | Some (Normal a, h') => f a h'
    | Some (Throw msg, h') => Some (Throw msg, h')
    | None => None
    end.
Proof. reflexivity. Qed.

(** A method call on a builder expression that evaluates to a live
    reference. *)
Lemma send_eq b m h r h1 this :
  b h = Some (Normal r, h1) -> h1 !! r = Some this ->
  (b ▷ m) h =
    Some (match (m this).1 with
          | Normal _ => Normal r
          | Throw msg => Throw msg
          end, <[r := (m this).2]> h1).
Proof.
  intros Hb Hr. unfold send. rewrite Js_bind_run, Hb, Js_bind_run.
  rewrite (invoke_eq r m h1 this Hr). by destruct (m this).1.
Qed.

Lemma send_thrown b m h msg h1 :
  b h = Some (Throw msg, h1) -> (b ▷ m) h = Some (Throw msg, h1).
Proof. intros Hb. unfold send. by rewrite Js_bind_run, Hb. Qed.

Lemma send_all_thrown calls : forall b h msg h1,
  b h = Some (Throw msg, h1) -> send_all b calls h = Some (Throw msg, h1).
Proof.
  induction calls as [|c rest IH]; intros b h msg h1 Hb; [done|].
  cbn [send_all foldl]. apply IH. by apply send_thrown.
Qed.

(** A chain on a builder expression does to the object what [chain] says. *)
Lemma send_all_eq calls : forall b h r h1 this,
  b h = Some (Normal r, h1) -> h1 !! r = Some this ->
  send_all b calls h =
    Some (match (chain calls this).1 with
          | Normal _ => Normal r
          | Throw msg => Throw msg
          end, <[r := (chain calls this).2]> h1).
Proof.
  induction calls as [|[m v] rest IH]; intros b h r h1 this Hb Hr.
  - cbn. by rewrite list_insert_id.
  - change (send_all b ((m, v) :: rest)) with (send_all (b ▷ call m v) rest).
    pose proof (send_eq b (call m v) h r h1 this Hb Hr) as Hsend.
    rewrite chain_cons.
    destruct (call m v this) as [[[]|msg] this1]; cbn [fst snd] in Hsend.
    + rewrite (IH _ h r _ this1 Hsend).
      * by rewrite list_insert_insert_eq.
      * apply list_lookup_insert_eq. by eapply lookup_lt_Some.
    + by rewrite (send_all_thrown rest _ h msg _ Hsend).
Qed.

Lemma alloc_eq o h : alloc o h = Some (Normal (length h), (h ++ [o])%list).
Proof. reflexivity. Qed.

Lemma lookup_fresh (h : list Selector) o : (h ++ [o])%list !! length h = Some o.
Proof. by rewrite lookup_app_r, Nat.sub_diag. Qed.

Lemma insert_fresh (h : list Selector) o o' :
  <[length h := o']> (h ++ [o])%list = (h ++ [o'])%list.
Proof.
  rewrite insert_app_r_alt by done. by rewrite Nat.sub_diag.
Qed.

Lemma factory_eq m v :
  factory m v = alloc SelectorElem.new_SelectorElem ▷ call m v.
Proof. by destruct m. Qed.

(** C3: a chain of [class], [attr] and [pseudoClass] calls in
    non-decreasing rank order returns on a new instance, and [stringify()]
    then returns the formatted fragments concatenated in call order; the
    same holds when the chain is written from a factory function of the
    facade, on every heap. *)
Theorem repeatable_chain_renders calls :
  Forall (fun c => singleton c.1 = false) calls ->
  Sorted Z.le (map (fun c => rank c.1) calls) ->
  (exists this,
     chain calls SelectorElem.new_SelectorElem = (Normal tt, this) /\
     (stringify this).1 =
       Normal (concat_all (map (fun c => fragment c.1 c.2) calls))) /\
  (forall m v rest h, calls = (m, v) :: rest ->
     exists h',
       render (send_all (factory m v) rest) h =
         Some (Normal (concat_all (map (fun c => fragment c.1 c.2) calls)), h')).
Proof.
  intros Hrep Hsort.
  destruct (chain_repeatable calls SelectorElem.new_SelectorElem Hrep Hsort)
    as (this & Hchain & Hsel); [done|].
  cbn [selectors SelectorElem.new_SelectorElem new_Selector app] in Hsel.
  assert ((stringify this).1 =
            Normal (concat_all (map (fun c => fragment c.1 c.2) calls))) as Hstr.
  { by rewrite stringify_eq, join_concat_all, Hsel. }
  split; [by exists this|].
  intros m v rest h ->.
  pose proof (send_all_eq ((m, v) :: rest) (alloc SelectorElem.new_SelectorElem)
                h (length h) _ SelectorElem.new_SelectorElem
                (alloc_eq _ h) (lookup_fresh h _)) as Hsend.
  change (send_all (alloc SelectorElem.new_SelectorElem) ((m, v) :: rest))
    with (send_all (alloc SelectorElem.new_SelectorElem ▷ call m v) rest)
    in Hsend.
  rewrite <- factory_eq, Hchain, insert_fresh in Hsend. cbn [fst snd] in Hsend.
  unfold render. rewrite Js_bind_run, Hsend.
  rewrite (invoke_eq _ stringify _ this (lookup_fresh h this)), Hstr.
  by eexists.
Qed.

(** C3 at [class('a').class('b').attr('c').pseudoClass('d')]. *)
Lemma repeatable_chain_renders_witness :
  exists h',
    render
      (send_all (factory Class "a")
         [(Class, "b"); (Attr, "c"); (PseudoClass, "d")]) [] =
      Some (Normal ".a.b[c]:d", h').
Proof.
  refine (proj2 (repeatable_chain_renders
                   [(Class, "a"); (Class, "b"); (Attr, "c"); (PseudoClass, "d")]
                   _ _) Class "a" _ [] eq_refl).
  - repeat constructor.
  - repeat constructor; cbn; lia.
Defined.

(** ** combine *)

Lemma rendered_idemp this : rendered (rendered this) = rendered this.
Proof. reflexivity. Qed.

Lemma renders_as_iff h r s :
  renders_as h r s <-> exists this, h !! r = Some this /\ s = join (selectors this).
Proof.
  unfold renders_as. split.
  - intros [h' Hinv]. unfold invoke in Hinv.
    destruct (h !! r) as [this|]; [|done]. exists this. split; [done|].
    rewrite stringify_eq in Hinv. congruence.
  - intros (this & Hr & ->). rewrite (invoke_eq r stringify h this Hr).
    rewrite stringify_eq. by eexists.
Qed.

(** On a new instance [add] with the default type appends. *)
Lemma add_default_new s :
  add s EmptyString SelectorElem.new_SelectorElem =
    (Normal tt, combined_instance s).
Proof. reflexivity. Qed.

(** [combine] in closed form.  When the two operands are one object the
    second [stringify()] finds it already reset. *)
Lemma combine_eq h a b c oa ob :
  h !! a = Some oa -> h !! b = Some ob ->
  cssSelectorBuilder.combine a c b h =
    Some (Normal (length h),
          (<[b := rendered ob]> (<[a := rendered oa]> h) ++
           [combined_instance
              (combined (join (selectors oa)) c
                 (if decide (a = b) then EmptyString
                  else join (selectors ob)))])%list).
Proof.
  intros Ha Hb. unfold cssSelectorBuilder.combine.
  rewrite Js_bind_run, (invoke_eq a stringify h oa Ha), stringify_eq.
  cbn [fst snd]. rewrite Js_bind_run.
  set (h1 := <[a := rendered oa]> h).
  assert (h1 !! b = Some (if decide (a = b) then rendered oa else ob)) as Hb1.
  { unfold h1. destruct (decide (a = b)) as [<-|Hne].
    - apply list_lookup_insert_eq. by eapply lookup_lt_Some.
    - by rewrite list_lookup_insert_ne. }
  rewrite (invoke_eq b stringify h1 _ Hb1), stringify_eq. cbn [fst snd].
  set (ob1 := if decide (a = b) then rendered oa else ob).
  assert (rendered ob1 = rendered ob) as ->.
  { unfold ob1. destruct (decide (a = b)) as [<-|]; [|done].
    rewrite rendered_idemp. congruence. }
  assert (join (selectors ob1) =
            if decide (a = b) then EmptyString else join (selectors ob)) as ->.
  { unfold ob1. by destruct (decide (a = b)). }
  set (h2 := <[b := rendered ob]> h1).
  set (s := _ +:+ _).
  rewrite (send_eq (alloc SelectorElem.new_SelectorElem)
             (add s EmptyString) h2 (length h2) _
             SelectorElem.new_SelectorElem (alloc_eq _ h2) (lookup_fresh h2 _)).
  rewrite add_default_new, insert_fresh. cbn [fst snd].
  unfold h2, h1. by rewrite !length_insert.
Qed.

(** The builder [combine] returns renders as the composed string. *)
Lemma combine_renders h a b c oa ob :
  h !! a = Some oa -> h !! b = Some ob ->
  exists h',
    cssSelectorBuilder.combine a c b h = Some (Normal (length h), h') /\
    h' !! length h =
      Some (combined_instance
              (combined (join (selectors oa)) c
                 (if decide (a = b) then EmptyString
                  else join (selectors ob)))) /\
    h' !! a = Some (rendered oa) /\
    h' !! b = Some (rendered ob).
Proof.
  intros Ha Hb. eexists. split; [by apply combine_eq|].
  pose proof (lookup_lt_Some _ _ _ Ha) as Hla.
  pose proof (lookup_lt_Some _ _ _ Hb) as Hlb.
  split; [|split].
  - rewrite lookup_app_r by (rewrite !length_insert; lia).
    by rewrite !length_insert, Nat.sub_diag.
  - rewrite lookup_app_l by (rewrite !length_insert; lia).
    destruct (decide (a = b)) as [<-|Hne].
    + rewrite list_lookup_insert_eq by (rewrite length_insert; lia). congruence.
    + rewrite list_lookup_insert_ne by done. by rewrite list_lookup_insert_eq.
  - rewrite lookup_app_l by (rewrite !length_insert; lia).
    by rewrite list_lookup_insert_eq by (rewrite length_insert; lia).
Qed.

(** C4: [combine(a, c, b)] on two live builders, which may be the same
    object, calls [a.stringify()] and then [b.stringify()], leaving both
    reset, and returns a builder that was not on the heap before and whose
    [stringify()] returns the first string, a space, [c], a space and the
    second string.  The first string is the concatenation of the fragments
    of [a], the second that of [b] when [b] is another object.  The returned
    builder is a live builder like any other: combined with any builder
    [d], on either side, it contributes that composed string. *)
Theorem combine_joins_renderings h a b c oa ob :
  h !! a = Some oa -> h !! b = Some ob ->
  exists str1 h1 str2 h2 r h',
    invoke a stringify h = Some (Normal str1, h1) /\
    invoke b stringify h1 = Some (Normal str2, h2) /\
    str1 = concat_all (selectors oa) /\
    (a <> b -> str2 = concat_all (selectors ob)) /\
    cssSelectorBuilder.combine a c b h = Some (Normal r, h') /\
    h !! r = None /\
    h' !! a = Some (rendered oa) /\
    h' !! b = Some (rendered ob) /\
    renders_as h' r (str1 +:+ " " +:+ c +:+ " " +:+ str2) /\
    forall c' d sd, d <> r -> renders_as h' d sd ->
      (exists r' h'',
         cssSelectorBuilder.combine r c' d h' = Some (Normal r', h'') /\
         renders_as h'' r'
           ((str1 +:+ " " +:+ c +:+ " " +:+ str2) +:+ " " +:+ c' +:+ " " +:+ sd)) /\
      (exists r' h'',
         cssSelectorBuilder.combine d c' r h' = Some (Normal r', h'') /\
         renders_as h'' r'
           (sd +:+ " " +:+ c' +:+ " " +:+ (str1 +:+ " " +:+ c +:+ " " +:+ str2))).
Proof.
  intros Ha Hb.
  destruct (combine_renders h a b c oa ob Ha Hb) as (h' & Hcomb & Hr & Ha' & Hb').
  set (h1 := <[a := rendered oa]> h).
  assert (h1 !! b = Some (if decide (a = b) then rendered oa else ob)) as Hb1.
  { unfold h1. destruct (decide (a = b)) as [<-|Hne].
    - apply list_lookup_insert_eq. by eapply lookup_lt_Some.
    - by rewrite list_lookup_insert_ne. }
  exists (join (selectors oa)), h1,
    (if decide (a = b) then EmptyString else join (selectors ob)),
    (<[b := rendered (if decide (a = b) then rendered oa else ob)]> h1),
    (length h), h'.
  split; [by rewrite (invoke_eq a stringify h oa Ha), stringify_eq|].
  split.
  { rewrite (invoke_eq b stringify h1 _ Hb1), stringify_eq. cbn [fst snd].
    by destruct (decide (a = b)). }
  split; [apply join_concat_all|].
  split.
  { intros Hne. rewrite decide_False by done. apply join_concat_all. }
  split; [done|]. split; [by apply lookup_ge_None|].
  split; [done|]. split; [done|].
  split.
  { apply renders_as_iff. eexists. split; [exact Hr|]. reflexivity. }
  intros c' d sd Hd (od & Hod & ->)%renders_as_iff. split.
  - destruct (combine_renders h' (length h) d c' _ od Hr Hod)
      as (h'' & Hcomb' & Hr' & _).
    exists (length h'), h''. split; [done|].
    apply renders_as_iff. eexists. split; [exact Hr'|].
    repeat case_decide; congruence || reflexivity.
  - destruct (combine_renders h' d (length h) c' od _ Hod Hr)
      as (h'' & Hcomb' & Hr' & _).
    exists (length h'), h''. split; [done|].
    apply renders_as_iff. eexists. split; [exact Hr'|].
    repeat case_decide; congruence || reflexivity.
Qed.

(** C4 at [combine(a, '>', b)] with [a = element('a').class('b')] and
    [b = class('a')] already rendered once. *)
Lemma combine_joins_renderings_witness :
  exists r h',
    cssSelectorBuilder.combine 0%nat ">" 1%nat
      [link_with_class; class_then_render] = Some (Normal r, h') /\
    renders_as h' r "a.b > ".
Proof.
  destruct (combine_joins_renderings [link_with_class; class_then_render]
              0%nat 1%nat ">" link_with_class class_then_render
              eq_refl eq_refl)
    as (str1 & h1 & str2 & h2 & r & h' & _ & _ & Hs1 & Hs2 & Hcomb & _ & _ & _ & Hr & _).
  exists r, h'. split; [exact Hcomb|].
  rewrite Hs1, (Hs2 ltac:(discriminate)) in Hr. exact Hr.
Defined.

(** ** Chaining onto a combined builder *)

Lemma weights_nonnegative k w : selectorsWeight !! k = Some w -> 0 <= w.
Proof.
  intros Hk. apply elem_of_list_to_map_2 in Hk.
  repeat (apply elem_of_cons in Hk as [[= _ ->]|Hk]; [lia|]).
  by apply elem_of_nil in Hk.
Qed.

(** C10: the builder [combine] returns holds the composed string as its
    one fragment, recorded with the weight of the default type, which is 0,
    the least weight of the table, and has its three flags clear.  Every
    fragment method called on it therefore returns, having appended, and
    [combine(a, c, b).m(v).stringify()] returns the composed string followed
    by the formatted fragment. *)
Theorem combined_builder_takes_any_fragment h a b c oa ob m v :
  h !! a = Some oa -> h !! b = Some ob ->
  exists s r h',
    cssSelectorBuilder.combine a c b h = Some (Normal r, h') /\
    h' !! r = Some (combined_instance s) /\
    renders_as h' r s /\
    selectorsWeight !! EmptyString = Some 0 /\
    (forall k w, selectorsWeight !! k = Some w -> 0 <= w) /\
    call m v (combined_instance s) =
      (Normal tt,
       mark m (pushed (fragment m v) (Some (rank m)) (combined_instance s))) /\
    exists h'',
      render (cssSelectorBuilder.combine a c b ▷ call m v) h =
        Some (Normal (s +:+ fragment m v), h'').
Proof.
  intros Ha Hb.
  destruct (combine_renders h a b c oa ob Ha Hb) as (h' & Hcomb & Hr & _).
  set (s := combined _ _ _) in Hr.
  assert (call m v (combined_instance s) =
            (Normal tt,
             mark m (pushed (fragment m v) (Some (rank m)) (combined_instance s))))
    as Hcall.
  { apply call_appends; [by destruct m|].
    intros r [= <-]. destruct m; cbn; lia. }
  exists s, (length h), h'.
  split; [done|]. split; [done|].
  split; [apply renders_as_iff; by eexists|].
  split; [reflexivity|]. split; [exact weights_nonnegative|].
  split; [done|].
  unfold render. rewrite Js_bind_run.
  rewrite (send_eq _ (call m v) h (length h) h' _ Hcomb Hr), Hcall.
  cbn [fst snd].
  erewrite invoke_eq;
    last by (apply list_lookup_insert_eq; by eapply lookup_lt_Some).
  rewrite stringify_eq, join_concat_all, selectors_mark. cbn [fst snd].
  eexists. do 3 f_equal. cbn. by rewrite append_empty_r.
Qed.

(** C10 at [combine(a, '+', b).class('x')] with [a = element('a').class('b')]
    and [b = class('a')] already rendered once. *)
Lemma combined_builder_takes_any_fragment_witness :
  exists h'',
    render
      (cssSelectorBuilder.combine 0%nat "+" 1%nat ▷ SelectorElem.class "x")
      [link_with_class; class_then_render] =
      Some (Normal "a.b + .x", h'').
Proof.
  destruct (combined_builder_takes_any_fragment
              [link_with_class; class_then_render]
              0%nat 1%nat "+" link_with_class class_then_render Class "x"
              eq_refl eq_refl)
    as (s & r & h' & Hcomb & Hr & _ & _ & _ & _ & h'' & Hrender).
  exists h''.
  vm_compute in Hcomb. injection Hcomb as <- <-.
  vm_compute in Hr. injection Hr as <-.
  exact Hrender.
Defined.

(** ** The facade *)

(** A chain written from a factory function builds a new object at the
    first free reference and leaves the rest of the heap alone. *)
Lemma facade_chain_eq m v rest h :
  send_all (factory m v) rest h =
    Some (match (chain ((m, v) :: rest) SelectorElem.new_SelectorElem).1 with
          | Normal _ => Normal (length h)
          | Throw msg => Throw msg
          end,
          (h ++ [(chain ((m, v) :: rest) SelectorElem.new_SelectorElem).2])%list).
Proof.
  rewrite factory_eq.
  change (send_all (alloc SelectorElem.new_SelectorElem ▷ call m v) rest)
    with (send_all (alloc SelectorElem.new_SelectorElem) ((m, v) :: rest)).
  rewrite (send_all_eq _ _ h (length h) _ SelectorElem.new_SelectorElem
             (alloc_eq _ h) (lookup_fresh h _)).
  by rewrite insert_fresh.
Qed.

Lemma facade_chain_renders m v rest h this :
  chain ((m, v) :: rest) SelectorElem.new_SelectorElem = (Normal tt, this) ->
  render (send_all (factory m v) rest) h =
    Some (Normal (join (selectors this)), (h ++ [rendered this])%list).
Proof.
  intros Hchain. unfold render.
  rewrite Js_bind_run, facade_chain_eq, Hchain. cbn [fst snd].
  rewrite (invoke_eq _ stringify _ this (lookup_fresh h this)), stringify_eq.
  by rewrite insert_fresh.
Qed.

(** C8: a factory function of the facade followed by [stringify()] returns
    the value with the sigil of its kind, and the two expressions of the
    documentation return the strings given there, on every heap. *)
Theorem facade_formats_fragments :
  (forall m v h, exists h',
     render (factory m v) h = Some (Normal (fragment m v), h')) /\
  (forall h, exists h',
     example_link h =
       Some (Normal ("a[href$=" +:+ dquote +:+ ".png" +:+ dquote +:+ "]:focus"),
             h')) /\
  (forall h, exists h',
     example_main h = Some (Normal "#main.container.editable", h')).
Proof.
  split; [|split].
  - intros m v h. eexists.
    change (factory m v) with (send_all (factory m v) []).
    erewrite facade_chain_renders.
    + do 3 f_equal.
      instantiate (1 := mark m (pushed (fragment m v) (Some (rank m))
                                  SelectorElem.new_SelectorElem)).
      rewrite selectors_mark. reflexivity.
    + rewrite chain_cons, call_appends; [done | by destruct m | done].
  - intros h. eexists.
    change example_link
      with (render (send_all (factory Element "a")
                      [(Attr, "href$=" +:+ dquote +:+ ".png" +:+ dquote);
                       (PseudoClass, "focus")])).
    erewrite facade_chain_renders; last (vm_compute; reflexivity).
    reflexivity.
  - intros h. eexists.
    change example_main
      with (render (send_all (factory Id "main")
                      [(Class, "container"); (Class, "editable")])).
    erewrite facade_chain_renders; last (vm_compute; reflexivity).
    reflexivity.
Qed.

(** ** Evaluation at the end of the heap

    The expressions of the examples allocate their builders after the
    objects [h] that are on the heap already and use only those builders;
    the lemmas below are the lemmas above with [h] set apart. *)

Lemma lookup_framed (h l : list Selector) i : (h ++ l) !! (length h + i)%nat = l !! i.
Proof. rewrite lookup_app_r by lia. f_equal. lia. Qed.

Lemma facade_chain_framed m v rest h l this :
  chain ((m, v) :: rest) SelectorElem.new_SelectorElem = (Normal tt, this) ->
  send_all (factory m v) rest (h ++ l) =
    Some (Normal (length h + length l)%nat, (h ++ (l ++ [this]))%list).
Proof.
  intros Hchain. rewrite facade_chain_eq, Hchain. cbn [fst snd].
  by rewrite length_app, app_assoc.
Qed.

Lemma invoke_framed {A : Type} (m : M A) h l i this :
  l !! i = Some this ->
  invoke (length h + i)%nat m (h ++ l) =
    Some ((m this).1, (h ++ <[i := (m this).2]> l)%list).
Proof.
  intros Hi. rewrite (invoke_eq _ m _ this) by (by rewrite lookup_framed).
  by rewrite insert_app_r.
Qed.

Lemma combine_framed h l i j c oa ob :
  l !! i = Some oa -> l !! j = Some ob ->
  cssSelectorBuilder.combine (length h + i)%nat c (length h + j)%nat (h ++ l) =
    Some (Normal (length h + length l)%nat,
          (h ++ (<[j := rendered ob]> (<[i := rendered oa]> l) ++
                 [combined_instance
                    (combined (join (selectors oa)) c
                       (if decide (i = j) then EmptyString
                        else join (selectors ob)))]))%list).
Proof.
  intros Hi Hj.
  rewrite (combine_eq _ _ _ c oa ob) by (by rewrite lookup_framed).
  rewrite !insert_app_r, length_app, <- app_assoc.
  repeat case_decide; (done || lia).
Qed.

(** C7: the nested [combine] expression of the documentation returns the
    string given there, with three spaces between the [tr] and the [td]
    parts: the descendant combinator is itself a space and [combine] puts a
    space on each side of it.  This holds on every heap. *)
Theorem nested_combine_example h :
  exists h',
    example_nested h =
      Some (Normal
              "div#main.container.draggable + table#data ~ tr:nth-of-type(even)   td:nth-of-type(even)",
            h').
Proof.
  unfold example_nested, render.
  change (cssSelectorBuilder.element "div" ▷ SelectorElem.id "main"
            ▷ SelectorElem.class "container" ▷ SelectorElem.class "draggable")
    with (send_all (factory Element "div")
            [(Id, "main"); (Class, "container"); (Class, "draggable")]).
  change (cssSelectorBuilder.element "table" ▷ SelectorElem.id "data")
    with (send_all (factory Element "table") [(Id, "data")]).
  change (cssSelectorBuilder.element "tr"
            ▷ SelectorElem.pseudoClass "nth-of-type(even)")
    with (send_all (factory Element "tr") [(PseudoClass, "nth-of-type(even)")]).
  change (cssSelectorBuilder.element "td"
            ▷ SelectorElem.pseudoClass "nth-of-type(even)")
    with (send_all (factory Element "td") [(PseudoClass, "nth-of-type(even)")]).
  rewrite <- (app_nil_r h). eexists.
  do 4 (rewrite !Js_bind_run;
        erewrite facade_chain_framed; last (vm_compute; reflexivity);
        cbn [length app]).
  do 3 (erewrite combine_framed; [|reflexivity..];
        cbn [length app decide_rel]).
  erewrite invoke_framed; last reflexivity.
  reflexivity.
Qed.

(** * Further properties of the builder *)

(** ** Errors *)

Lemma call_cases m v this :
  (seen m this = true /\ call m v this = (Throw dup_msg, this)) \/
  (seen m this = false /\ js_lt (Some (rank m)) (last_rank this) = true /\
   call m v this = (Throw order_msg, this)) \/
  (seen m this = false /\ js_lt (Some (rank m)) (last_rank this) = false /\
   call m v this = (Normal tt, appended m v this)).
Proof.
  rewrite call_eq. destruct (seen m this); [by left|right].
  destruct (js_lt _ _); [by left | by right].
Qed.

(** X1: The only errors are the two of the source, and a call that throws has
    changed nothing: [add] throws the order error only, a fragment method
    the order or the duplicate error, and in each case [this] is as before
    the call; a singleton flag is assigned after [add] has returned. *)
Theorem throwing_call_changes_nothing :
  (forall val type this msg,
     (add val type this).1 = Throw msg ->
     msg = order_msg /\ (add val type this).2 = this) /\
  (forall m v this msg,
     (call m v this).1 = Throw msg ->
     (msg = order_msg \/ msg = dup_msg) /\ (call m v this).2 = this).
Proof.
  split.
  - intros val type this msg. rewrite add_eq.
    destruct (js_lt _ _); cbn [fst snd]; [|discriminate].
    intros [= <-]. by split.
  - intros m v this msg.
    destruct (call_cases m v this) as [[_ ->]|[(_ & _ & ->)|(_ & _ & ->)]];
      cbn [fst snd]; [| |discriminate].
    + intros [= <-]. split; [by right | done].
    + intros [= <-]. split; [by left | done].
Qed.

(** At [id('x')] after [class('a')] and at [add] with the default type
    after [class('a')]. *)
Lemma throwing_call_changes_nothing_witness :
  let b := (call Class "a" SelectorElem.new_SelectorElem).2 in
  (add "x" EmptyString b).2 = b /\ (call Id "x" b).2 = b.
Proof.
  split.
  - apply (proj1 throwing_call_changes_nothing "x" EmptyString _ order_msg).
    reflexivity.
  - apply (proj2 throwing_call_changes_nothing Id "x" _ order_msg).
    reflexivity.
Defined.



(** X3: After [stringify()] the flags are clear and the rank history is kept:
    every fragment method, singleton or not, is then checked against the
    last rank recorded before the render and against nothing else. *)
Theorem call_after_render m v this :
  call m v (stringify this).2 =
    if js_lt (Some (rank m)) (last_rank this)
    then (Throw order_msg, rendered this)
    else (Normal tt, appended m v (rendered this)).
Proof.
  rewrite stringify_eq, call_eq. cbn [snd].
  by replace (seen m (rendered this)) with false by (by destruct m).
Qed.

(** ** New builders *)

(** On a new instance every fragment method returns: there is no rank to
    compare with and no flag is set. *)
Lemma call_on_new m v :
  call m v SelectorElem.new_SelectorElem =
    (Normal tt, appended m v SelectorElem.new_SelectorElem).
Proof. apply call_appends; [by destruct m | discriminate]. Qed.

(** X4: A factory function of the facade never throws: on every heap it
    returns a reference that was not in use, to a builder that holds the
    one formatted fragment, and it leaves every object already on the heap
    as it was. *)
Theorem factory_makes_fresh_builder m v h :
  exists this,
    factory m v h = Some (Normal (length h), h ++ [this]) /\
    h !! length h = None /\
    selectors this = [fragment m v] /\
    selectorsTypes this = [Some (rank m)] /\
    (forall m', seen m' this = true <-> singleton m = true /\ m' = m).
Proof.
  exists (appended m v SelectorElem.new_SelectorElem).
  split; [|split; [|split; [|split]]].
  - change (factory m v) with (send_all (factory m v) []).
    by rewrite facade_chain_eq, chain_cons, call_on_new.
  - by apply lookup_ge_None.
  - unfold appended. by rewrite selectors_mark.
  - unfold appended. by rewrite selectorsTypes_mark.
  - intros m'. destruct m, m'; cbn; intuition congruence.
Qed.

(** ** Invariants of reachable builders *)

Lemma add_default_cases val this :
  (add val EmptyString this).2 = this \/
  (js_lt (Some 0) (last_rank this) = false /\
   (add val EmptyString this).2 = pushed val (Some 0) this).
Proof.
  rewrite add_eq, weight_default. destruct (js_lt _ _); [by left | by right].
Qed.

Lemma selectorsTypes_appended m v this :
  selectorsTypes (appended m v this) = selectorsTypes this ++ [Some (rank m)].
Proof. unfold appended. by rewrite selectorsTypes_mark. Qed.

Lemma selectors_appended m v this :
  selectors (appended m v this) = selectors this ++ [fragment m v].
Proof. unfold appended. by rewrite selectors_mark. Qed.

Lemma last_rank_numbers this (rs : list Z) :
  selectorsTypes this = Some <$> rs -> last_rank this = last rs.
Proof.
  unfold last_rank. intros ->. rewrite fmap_last. by destruct (last rs).
Qed.

Lemma sorted_push (rs : list Z) w :
  Sorted Z.le rs -> js_lt (Some w) (last rs) = false ->
  Sorted Z.le (rs ++ [w]).
Proof.
  induction rs as [|r rs IH]; intros Hsort Hlt.
  - repeat constructor.
  - apply Sorted_inv in Hsort as [Hsort Hhd].
    destruct rs as [|r' rs].
    + cbn in Hlt. repeat constructor. lia.
    + cbn [app]. constructor.
      * apply IH; [done|]. by rewrite last_cons_cons in Hlt.
      * apply HdRel_inv in Hhd. by constructor.
Qed.

(** X5: The recorded ranks of a reachable builder never decrease from one
    entry to the next, renders included: a rank is pushed only after it has
    been compared with the last one, and nothing removes a rank. *)
Theorem reachable_ranks_sorted this :
  reachable this ->
  exists rs : list Z, selectorsTypes this = Some <$> rs /\ Sorted Z.le rs.
Proof.
  induction 1 as [|m v this _ (rs & Hrs & Hsort)
                  |val this _ (rs & Hrs & Hsort)
                  |this _ (rs & Hrs & Hsort)].
  - exists []. split; [done | constructor].
  - destruct (call_cases m v this) as [[_ ->]|[(_ & _ & ->)|(_ & Hlt & ->)]];
      cbn [snd]; [by exists rs..|].
    exists (rs ++ [rank m]). rewrite selectorsTypes_appended, Hrs, fmap_app.
    split; [done|]. apply sorted_push; [done|].
    by rewrite <- (last_rank_numbers this rs Hrs).
  - destruct (add_default_cases val this) as [->|[Hlt ->]]; [by exists rs|].
    exists (rs ++ [0]). cbn [pushed selectorsTypes set_selectorsTypes].
    rewrite Hrs, fmap_app. split; [done|]. apply sorted_push; [done|].
    by rewrite <- (last_rank_numbers this rs Hrs).
  - exists rs. by rewrite stringify_eq.
Qed.

(** At the builder [element('a').class('b')]. *)
Lemma reachable_ranks_sorted_witness :
  exists rs : list Z,
    selectorsTypes link_with_class = Some <$> rs /\ Sorted Z.le rs.
Proof.
  apply (reachable_ranks_sorted link_with_class).
  change link_with_class
    with (call Class "b" (call Element "a" SelectorElem.new_SelectorElem).2).2.
  apply reach_call, reach_call, reach_new.
Defined.

Lemma current_ranks_pushed val w this :
  (length (selectors this) <= length (selectorsTypes this))%nat ->
  current_ranks (pushed val w this) = current_ranks this ++ [w].
Proof.
  intros Hlen. unfold current_ranks. cbn. rewrite !length_app. cbn [length].
  replace (length (selectorsTypes this) + 1 - (length (selectors this) + 1))%nat
    with (length (selectorsTypes this) - length (selectors this))%nat by lia.
  apply drop_app_le. lia.
Qed.

Lemma current_ranks_mark m this : current_ranks (mark m this) = current_ranks this.
Proof. by destruct m. Qed.

Lemma current_ranks_rendered this : current_ranks (rendered this) = [].
Proof. unfold current_ranks. cbn. apply drop_ge. lia. Qed.

Lemma occurrences_snoc m ws w :
  occurrences m (ws ++ [w]) =
    (occurrences m ws + if decide (w = Some (rank m)) then 1 else 0)%nat.
Proof.
  unfold occurrences. rewrite filter_app, length_app. f_equal.
  rewrite filter_cons, filter_nil. by case_decide.
Qed.

(** X6: Among the fragments a reachable builder holds, the kinds [element],
    [id] and [pseudo-element] each occur once when the flag of the kind is
    set and not at all when it is clear; so none of them ever occurs
    twice. *)
Theorem reachable_singletons_once this m :
  reachable this -> singleton m = true ->
  occurrences m (current_ranks this) = if seen m this then 1%nat else 0%nat.
Proof.
  intros Hreach Hm.
  induction Hreach as [|m' v this Hreach IH|val this Hreach IH|this Hreach IH].
  - by destruct m.
  - pose proof (proj2 (reachable_ranks this Hreach)) as Hlen.
    destruct (call_cases m' v this) as [[_ ->]|[(_ & _ & ->)|(Hseen & _ & ->)]];
      cbn [snd]; [done..|].
    unfold appended.
    rewrite current_ranks_mark, (current_ranks_pushed _ _ _ Hlen),
      occurrences_snoc, IH.
    destruct m, m'; try discriminate Hm; cbn in Hseen |- *;
      try rewrite Hseen; cbn; by destruct (_ this).
  - pose proof (proj2 (reachable_ranks this Hreach)) as Hlen.
    destruct (add_default_cases val this) as [->|[_ ->]]; [done|].
    rewrite (current_ranks_pushed _ _ _ Hlen), occurrences_snoc, IH.
    rewrite seen_pushed.
    destruct m; try discriminate Hm; cbn; (case_decide; [done|lia]).
  - rewrite stringify_eq. cbn [snd]. rewrite current_ranks_rendered.
    by destruct m.
Qed.

(** At the builder [element('a').class('b')] and the kind [element]. *)
Lemma reachable_singletons_once_witness :
  occurrences Element (current_ranks link_with_class) = 1%nat.
Proof.
  refine (reachable_singletons_once link_with_class Element _ eq_refl).
  change link_with_class
    with (call Class "b" (call Element "a" SelectorElem.new_SelectorElem).2).2.
  apply reach_call, reach_call, reach_new.
Defined.

(** ** Which chains return, and what they render *)

Lemma seen_appended m m' v this :
  seen m' (appended m v this) = false <->
  seen m' this = false /\ ~ (singleton m = true /\ m' = m).
Proof.
  unfold appended. destruct m, m'; cbn; intuition congruence.
Qed.

Lemma last_rank_appended m v this : last_rank (appended m v this) = Some (rank m).
Proof. unfold appended. by rewrite last_rank_mark, last_rank_pushed. Qed.

Lemma filter_singleton_cons m ms :
  filter (fun m => singleton m = true) (m :: ms) =
    if singleton m then m :: filter (fun m => singleton m = true) ms
    else filter (fun m => singleton m = true) ms.
Proof.
  rewrite filter_cons. destruct (singleton m); by case_decide.
Qed.

(** A chain returns from [this] exactly when its ranks never decrease, its
    first rank is not below the last rank of [this], no singleton method
    occurs twice in it and none of its methods finds its flag set. *)
Lemma chain_returns_iff calls : forall this,
  (chain calls this).1 = Normal tt <->
    Sorted Z.le (map rank (methods_of calls)) /\
    (forall m, head (methods_of calls) = Some m ->
               js_lt (Some (rank m)) (last_rank this) = false) /\
    NoDup (filter (fun m => singleton m = true) (methods_of calls)) /\
    (forall m, m ∈ methods_of calls -> seen m this = false).
Proof.
  induction calls as [|[m v] rest IH]; intros this.
  { cbn. split; [intros _|done].
    split; [constructor|]. split; [done|]. split; [constructor|].
    by intros ? ?%elem_of_nil. }
  rewrite chain_cons.
  change (methods_of ((m, v) :: rest)) with (m :: methods_of rest).
  rewrite fmap_cons, filter_singleton_cons.
  destruct (call_cases m v this) as [[Hseen ->]|[(_ & Hlt & ->)|(Hseen & Hlt & ->)]].
  - split; [done|]. intros (_ & _ & _ & Hclear).
    rewrite Hclear in Hseen by left. done.
  - split; [done|]. intros (_ & Hfirst & _).
    rewrite (Hfirst m eq_refl) in Hlt. done.
  - rewrite IH. setoid_rewrite last_rank_appended. split.
    + intros (Hsort & Hfirst & Hnodup & Hclear).
      assert (forall m', m' ∈ methods_of rest ->
                seen m' this = false /\ ~ (singleton m = true /\ m' = m))
        as Hclear'.
      { intros m' Hm'. by apply (seen_appended m m' v), Hclear. }
      split; [|split; [|split]].
      * constructor; [done|].
        destruct (methods_of rest) as [|m' ms]; constructor.
        specialize (Hfirst m' eq_refl). cbn in Hfirst. lia.
      * by intros ? [= <-].
      * destruct (singleton m) eqn:Hm; [|done].
        apply NoDup_cons. split; [|done].
        intros [_ Hin]%list_elem_of_filter.
        by destruct (Hclear' m Hin) as [_ []].
      * intros m' [->|Hm']%elem_of_cons; [done|]. by apply Hclear'.
    + intros (Hsort & _ & Hnodup & Hclear).
      apply Sorted_inv in Hsort as [Hsort Hhd].
      split; [done|]. split; [|split].
      * intros m' Hm'. destruct (methods_of rest) as [|m'' ms]; [done|].
        injection Hm' as ->. apply HdRel_inv in Hhd. cbn. lia.
      * destruct (singleton m); [by apply NoDup_cons in Hnodup as []|done].
      * intros m' Hm'. apply seen_appended. split.
        { apply Hclear. by right. }
        intros [Hm ->]. rewrite Hm in Hnodup.
        apply NoDup_cons in Hnodup as [Hnotin _]. apply Hnotin.
        by apply list_elem_of_filter.
Qed.

(** X7: On a new builder a chain of fragment methods returns exactly when it
    is in selector order: the ranks of its calls never decrease and
    [element], [id] and [pseudoElement] are each called at most once. *)
Theorem chain_returns_iff_well_ordered calls :
  (chain calls SelectorElem.new_SelectorElem).1 = Normal tt <->
  well_ordered calls.
Proof.
  rewrite chain_returns_iff. unfold well_ordered. split.
  - by intros (? & _ & ? & _).
  - intros [? ?]. split; [done|]. split; [|split; [done|]].
    + intros m _. reflexivity.
    + intros m _. by destruct m.
Qed.

(** At [element('a').id('b').class('c').class('d')]. *)
Lemma chain_returns_iff_well_ordered_witness :
  (chain [(Element, "a"); (Id, "b"); (Class, "c"); (Class, "d")]
     SelectorElem.new_SelectorElem).1 = Normal tt.
Proof.
  apply (proj2 (chain_returns_iff_well_ordered
                  [(Element, "a"); (Id, "b"); (Class, "c"); (Class, "d")])).
  split.
  - repeat constructor; cbn; lia.
  - change (NoDup [Element; Id]).
    repeat constructor; rewrite ?elem_of_cons, ?elem_of_nil; intuition discriminate.
Defined.

Lemma append_assoc s1 s2 s3 : (s1 +:+ s2) +:+ s3 = s1 +:+ (s2 +:+ s3).
Proof. induction s1 as [|a s1 IH]; [done|]. by rewrite !append_cons, IH. Qed.

Lemma concat_all_app l1 l2 :
  concat_all (l1 ++ l2) = concat_all l1 +:+ concat_all l2.
Proof.
  induction l1 as [|x l1 IH]; [done|].
  cbn [app concat_all foldr]. fold (concat_all (l1 ++ l2)) (concat_all l1).
  by rewrite IH, append_assoc.
Qed.

Lemma chain_selectors calls : forall this this',
  chain calls this = (Normal tt, this') ->
  selectors this' = selectors this ++ fragments_of calls.
Proof.
  induction calls as [|[m v] rest IH]; intros this this'.
  - intros [= <-]. by rewrite app_nil_r.
  - rewrite chain_cons.
    destruct (call_cases m v this) as [[_ ->]|[(_ & _ & ->)|(_ & _ & ->)]];
      [done..|].
    intros Hrest. rewrite (IH _ _ Hrest), selectors_appended.
    by rewrite <- app_assoc.
Qed.

(** X8: Whatever the methods of a chain and whatever the builder it starts on,
    when the chain returns [stringify()] gives the fragments the builder
    held before, followed by the formatted fragments of the chain in call
    order. *)
Theorem returning_chain_renders calls this this' :
  chain calls this = (Normal tt, this') ->
  (stringify this').1 =
    Normal (concat_all (selectors this) +:+ concat_all (fragments_of calls)).
Proof.
  intros Hchain. rewrite stringify_eq, join_concat_all. cbn [fst].
  by rewrite (chain_selectors calls this this' Hchain), concat_all_app.
Qed.

(** At [element('p').id('x').pseudoElement('first-line')] on a new
    builder. *)
Lemma returning_chain_renders_witness :
  exists this',
    chain [(Element, "p"); (Id, "x"); (PseudoElement, "first-line")]
      SelectorElem.new_SelectorElem = (Normal tt, this') /\
    (stringify this').1 = Normal "p#x::first-line".
Proof.
  eexists. split; [reflexivity|].
  apply (returning_chain_renders
           [(Element, "p"); (Id, "x"); (PseudoElement, "first-line")]
           SelectorElem.new_SelectorElem).
  reflexivity.
Defined.

(** ** More on combine *)

Lemma combine_frame h a b c oa ob r :
  h !! a = Some oa -> h !! b = Some ob -> r <> a -> r <> b ->
  (r < length h)%nat ->
  forall res h',
    cssSelectorBuilder.combine a c b h = Some (res, h') ->
    h' !! r = h !! r.
Proof.
  intros Ha Hb Hra Hrb Hr res h'.
  rewrite (combine_eq h a b c oa ob Ha Hb). intros [= _ <-].
  rewrite lookup_app_l by (by rewrite !length_insert).
  by rewrite !list_lookup_insert_ne.
Qed.

(** X9: [combine] touches no builder but its operands: every other object on
    the heap is as it was, and the heap has grown by the one new builder. *)
Theorem combine_leaves_others h a b c oa ob :
  h !! a = Some oa -> h !! b = Some ob ->
  exists h',
    cssSelectorBuilder.combine a c b h = Some (Normal (length h), h') /\
    length h' = S (length h) /\
    forall r, r <> a -> r <> b -> (r < length h)%nat -> h' !! r = h !! r.
Proof.
  intros Ha Hb.
  destruct (combine_renders h a b c oa ob Ha Hb) as (h' & Hcomb & _).
  exists h'. split; [done|]. split.
  - rewrite (combine_eq h a b c oa ob Ha Hb) in Hcomb. injection Hcomb as <-.
    rewrite length_app, !length_insert. cbn. lia.
  - intros r Hra Hrb Hr.
    exact (combine_frame h a b c oa ob r Ha Hb Hra Hrb Hr _ _ Hcomb).
Qed.

(** At a heap of three builders, the first two combined. *)
Lemma combine_leaves_others_witness :
  exists h',
    cssSelectorBuilder.combine 0%nat ">" 1%nat
      [link_with_class; class_then_render; link_with_class] =
      Some (Normal 3%nat, h') /\
    h' !! 2%nat = Some link_with_class.
Proof.
  destruct (combine_leaves_others
              [link_with_class; class_then_render; link_with_class]
              0%nat 1%nat ">" link_with_class class_then_render
              eq_refl eq_refl) as (h' & Hcomb & _ & Hframe).
  exists h'. split; [exact Hcomb|].
  exact (Hframe 2%nat ltac:(discriminate) ltac:(discriminate) ltac:(cbn; lia)).
Defined.

(** X10: [combine(a, c, a)], one builder on both sides: the second
    [stringify()] finds the builder already reset, so the result renders
    as the fragments of [a], a space, [c] and a space, with nothing after
    it; [a] itself then renders as the empty string. *)
Theorem combine_with_itself h a c oa :
  h !! a = Some oa ->
  exists h',
    cssSelectorBuilder.combine a c a h = Some (Normal (length h), h') /\
    renders_as h' (length h) (concat_all (selectors oa) +:+ " " +:+ c +:+ " ") /\
    renders_as h' a EmptyString.
Proof.
  intros Ha.
  destruct (combine_renders h a a c oa oa Ha Ha) as (h' & Hcomb & Hr & Ha' & _).
  exists h'. split; [done|]. split.
  - apply renders_as_iff. eexists. split; [exact Hr|].
    rewrite decide_True by done. by rewrite <- join_concat_all.
  - apply renders_as_iff. by eexists.
Qed.

(** At the builder [element('a').class('b')]. *)
Lemma combine_with_itself_witness :
  exists h',
    cssSelectorBuilder.combine 0%nat "+" 0%nat [link_with_class] =
      Some (Normal 1%nat, h') /\
    renders_as h' 1%nat "a.b + ".
Proof.
  destruct (combine_with_itself [link_with_class] 0%nat "+" link_with_class
              eq_refl) as (h' & Hcomb & Hr & _).
  exists h'. split; [exact Hcomb | exact Hr].
Defined.

Lemma join_one x : join [x] = x.
Proof. reflexivity. Qed.

(** X11: Nesting [combine] to the left or to the right renders the same
    selector: for three different builders,
    [combine(combine(a, c, b), c', d)] and [combine(a, c, combine(b, c', d))]
    both render as the fragments of [a], [c] between spaces, the fragments
    of [b], [c'] between spaces and the fragments of [d]. *)
Theorem combine_nesting_renders_alike h a b d c c' oa ob od :
  h !! a = Some oa -> h !! b = Some ob -> h !! d = Some od ->
  a <> b -> a <> d -> b <> d ->
  let s := concat_all (selectors oa) +:+ " " +:+ c +:+ " " +:+
           concat_all (selectors ob) +:+ " " +:+ c' +:+ " " +:+
           concat_all (selectors od) in
  (exists h', render (combine_left a c b c' d) h = Some (Normal s, h')) /\
  (exists h', render (combine_right a c b c' d) h = Some (Normal s, h')).
Proof.
  intros Ha Hb Hd Hab Had Hbd s.
  pose proof (lookup_lt_Some _ _ _ Ha) as Hla.
  pose proof (lookup_lt_Some _ _ _ Hb) as Hlb.
  pose proof (lookup_lt_Some _ _ _ Hd) as Hld.
  split.
  - destruct (combine_renders h a b c oa ob Ha Hb) as (h1 & Hc1 & Hr1 & _).
    pose proof (eq_trans
                  (combine_frame h a b c oa ob d Ha Hb
                     ltac:(congruence) ltac:(congruence) Hld _ _ Hc1) Hd)
      as Hd1.
    destruct (combine_renders h1 (length h) d c' _ od Hr1 Hd1)
      as (h2 & Hc2 & Hr2 & _).
    unfold render, combine_left. rewrite !Js_bind_run, Hc1, Hc2.
    rewrite (invoke_eq _ stringify h2 _ Hr2), stringify_eq. cbn [fst snd].
    eexists. do 3 f_equal.
    rewrite !decide_False by lia.
    subst s. unfold combined. cbn [selectors combined_instance].
    by rewrite !join_one, !join_concat_all, !append_assoc.
  - destruct (combine_renders h b d c' ob od Hb Hd) as (h1 & Hc1 & Hr1 & _).
    pose proof (eq_trans
                  (combine_frame h b d c' ob od a Hb Hd
                     ltac:(congruence) ltac:(congruence) Hla _ _ Hc1) Ha)
      as Ha1.
    destruct (combine_renders h1 a (length h) c oa _ Ha1 Hr1)
      as (h2 & Hc2 & Hr2 & _).
    unfold render, combine_right. rewrite !Js_bind_run, Hc1, Hc2.
    rewrite (invoke_eq _ stringify h2 _ Hr2), stringify_eq. cbn [fst snd].
    eexists. do 3 f_equal.
    rewrite !decide_False by lia.
    subst s. unfold combined. cbn [selectors combined_instance].
    by rewrite !join_one, !join_concat_all.
Qed.

(** At three builders of which the second has been rendered already. *)
Lemma combine_nesting_renders_alike_witness :
  let h := [link_with_class; class_then_render;
            (call Id "x" SelectorElem.new_SelectorElem).2] in
  (exists h',
     render (combine_left 0%nat ">" 1%nat "~" 2%nat) h =
       Some (Normal "a.b >  ~ #x", h')) /\
  (exists h',
     render (combine_right 0%nat ">" 1%nat "~" 2%nat) h =
       Some (Normal "a.b >  ~ #x", h')).
Proof.
  exact (combine_nesting_renders_alike
           [link_with_class; class_then_render;
            (call Id "x" SelectorElem.new_SelectorElem).2]
           0%nat 1%nat 2%nat ">" "~"
           link_with_class class_then_render
           (call Id "x" SelectorElem.new_SelectorElem).2
           eq_refl eq_refl eq_refl
           ltac:(discriminate) ltac:(discriminate) ltac:(discriminate)).
Defined.

(** ** Chains on combined builders and through the facade *)

(** X12: The builder [combine] returns takes the chains a new builder takes,
    and no others: its one rank is 0, below every rank a method pushes, and
    its flags are clear. *)
Theorem combined_builder_like_new s calls :
  (chain calls (combined_instance s)).1 = Normal tt <->
  (chain calls SelectorElem.new_SelectorElem).1 = Normal tt.
Proof.
  rewrite !chain_returns_iff.
  split; intros (Hsort & _ & Hnodup & _);
    (split; [done|]; split; [|split; [done|]]).
  - intros m _. reflexivity.
  - intros m _. by destruct m.
  - intros m _. by destruct m.
  - intros m _. by destruct m.
Qed.

(** At [class('x')] chained onto a combined builder. *)
Lemma combined_builder_like_new_witness :
  (chain [(Class, "x")] (combined_instance "a > b")).1 = Normal tt.
Proof.
  apply (proj2 (combined_builder_like_new "a > b" [(Class, "x")])).
  reflexivity.
Defined.


